(** * SharedPool (creational-patterns/object-pool/object-pool.h)

    A shallow embedding of the [SharedPool<T>] class template and of the
    lease type it hands out, [std::unique_ptr<T, std::function<void(T* p)>>].

    The pool object together with the free store holding the [T] objects is
    the state; member functions are computations in a state-and-signal
    monad.  The members of the standard library the class uses
    ([std::stack], [std::unique_ptr], [assert]) are written out with their
    documented behaviour, one definition per member. *)

From stdpp Require Import base option list gmap.

Module ObjectPool.

(** ** Data *)

Section Model.

(** The template parameter [class T]: the state of one resource object. *)
Context {T : Type}.

(** [Resource::UseResource] and [Resource::Reset] are declared in the
    header without a body; they are [void] members acting on the object,
    so each is taken as a transformer of the object's state. *)
Variables UseResource Reset : T → T.

(** [T*]: the address of a live object, or [nullptr]. *)
Definition raw_ptr : Type := option positive.

Definition nullptr : raw_ptr := None.

(** [std::unique_ptr<T>] (default deleter): the pointer it owns. *)
Definition unique_ptr : Type := raw_ptr.

(** [class SharedPool]: its only data member is
    [std::stack<std::unique_ptr<T>> m_pool]; the head of the list is the
    top of the stack. *)
Record SharedPool : Type := mkSharedPool { m_pool : list unique_ptr }.

(** The pool object [*this] and the free store of [T] objects. *)
Record Store : Type := mkStore { this : SharedPool; heap : gmap positive T }.

(** The failed [assert] of [Acquire] is the one signal of the class. *)
Inductive Signal : Type := PoolExhausted.

Inductive Outcome (A : Type) : Type :=
| Returned (a : A)
| Signalled (e : Signal).

(** A member function call: it runs on a store and leaves a store, also
    when it signals (the store at the point of the signal). *)
Definition M (A : Type) : Type := Store → Outcome A * Store.

#[global] Instance M_ret : MRet M := λ A a s, (Returned A a, s).

#[global] Instance M_bind : MBind M := λ A B f m s,
  match m s with
  | (Returned _ a, s') => f a s'
  | (Signalled _ e, s') => (Signalled B e, s')
  end.

Definition signal {A : Type} (e : Signal) : M A := λ s, (Signalled A e, s).

Definition get_m_pool : M (list unique_ptr) :=
  λ s, (Returned _ (m_pool (this s)), s).

Definition set_m_pool (st : list unique_ptr) : M unit :=
  λ s, (Returned _ (), mkStore (mkSharedPool st) (heap s)).

Definition set_heap (f : gmap positive T → gmap positive T) : M unit :=
  λ s, (Returned _ (), mkStore (this s) (f (heap s))).

(** ** The standard library members the class calls *)

(** [assert(c)] with assertions enabled: nothing when [c] holds, the
    signal (the process aborts) otherwise. *)
Definition assert (c : bool) : M unit :=
  if c then mret () else signal PoolExhausted.

(** [std::move(u)] into a new [unique_ptr]: the new one owns the pointer,
    the source is left null. *)
Definition unique_ptr_move (u : unique_ptr) : unique_ptr * unique_ptr :=
  (u, nullptr).

(** [~unique_ptr<T>()]: [delete] on the owned pointer unless it is null. *)
Definition unique_ptr_dtor (u : unique_ptr) : M unit :=
  match u with
  | Some a => set_heap (delete a)
  | None => mret ()
  end.

(** [m_pool.empty()], [m_pool.size()]. *)
Definition stack_empty : M bool :=
  st ← get_m_pool; mret (match st with [] => true | _ :: _ => false end).

Definition stack_size : M nat :=
  st ← get_m_pool; mret (length st).

(** [m_pool.push(std::move(t))]. *)
Definition stack_push (t : unique_ptr) : M unit :=
  st ← get_m_pool; set_m_pool (t :: st).

(** [m_pool.top().release()]: the top element gives up its pointer and
    stays in the stack as a null [unique_ptr].  [top()] of an empty stack
    is undefined in C++; [Acquire] only reaches it behind its assertion,
    and the model leaves the empty stack as it is there. *)
Definition stack_top_release : M raw_ptr :=
  st ← get_m_pool;
  match st with
  | top :: rest => set_m_pool (nullptr :: rest);; mret top
  | [] => mret nullptr
  end.

(** [m_pool.pop()]: the top element is destroyed and removed. *)
Definition stack_pop : M unit :=
  st ← get_m_pool;
  match st with
  | top :: rest => unique_ptr_dtor top;; set_m_pool rest
  | [] => mret ()
  end.

(** ** The lease *)

(** [ptrType = std::unique_ptr<T, std::function<void(T* p)>>]: the owned
    pointer and the deleter stored with it. *)
Record ptrType : Type := mkLease {
  get : raw_ptr;
  get_deleter : positive → M unit
}.

(** Move construction of a lease: the source keeps its deleter and a null
    pointer. *)
Definition ptrType_move (l : ptrType) : ptrType * ptrType :=
  (l, mkLease nullptr (get_deleter l)).

(** [~ptrType()], the end of a lease: the deleter is called on the owned
    pointer unless that is null. *)
Definition ptrType_dtor (l : ptrType) : M unit :=
  match get l with
  | Some ptr => get_deleter l ptr
  | None => mret ()
  end.

(** ** SharedPool's member functions *)

(** [void Add(std::unique_ptr<T> t) { m_pool.push(std::move(t)); }];
    the parameter [t], null after the move, is destroyed on return. *)
Definition Add (t : unique_ptr) : M unit :=
  let '(moved, t') := unique_ptr_move t in
  stack_push moved;;
  unique_ptr_dtor t'.

(** The lambda of [Acquire]:
    [[this](T* ptr) { this->Add(std::unique_ptr<T>(ptr)); }]. *)
Definition return_to_pool : positive → M unit :=
  λ ptr, Add (Some ptr).

(** [ptrType Acquire()]. *)
Definition Acquire : M ptrType :=
  e ← stack_empty;
  assert (negb e);;
  raw ← stack_top_release;
  let tmp := mkLease raw return_to_pool in
  stack_pop;;
  let '(result, tmp') := ptrType_move tmp in
  ptrType_dtor tmp';;
  mret result.

(** [bool Empty() const]. *)
Definition Empty : M bool := stack_empty.

(** [size_t Size() const]; a [size_t] holds the size of any container,
    so the count is a natural number. *)
Definition Size : M nat := stack_size.

(** ** A client of the pool

    The contract of the pool is about sequences of calls and the leases
    alive between them: a client is a store together with the leases it
    holds, and a program is a list of the steps below. *)

Record Sys : Type := mkSys { store : Store; live : list ptrType }.

(** The steps of a client:
    - [OpAdd a v] is [pool.Add(std::make_unique<T>(v))], the new object
      being placed at address [a];
    - [OpAddNull] is [pool.Add(std::unique_ptr<T>())], the handle that owns
      nothing;
    - [OpAcquire] is [auto l = pool.Acquire();], the new lease kept first
      in [live];
    - [OpRelease i] ends the scope of the [i]-th live lease;
    - [OpUse i] and [OpReset i] are [l->UseResource()] and [l->Reset()]
      through the [i]-th live lease. *)
Inductive Op : Type :=
| OpAdd (a : positive) (v : T)
| OpAddNull
| OpAcquire
| OpRelease (i : nat)
| OpUse (i : nat)
| OpReset (i : nat).

(** A step ends in a new client state, in an abort carrying the signal, or
    is no step at all ([Invalid]): a lease that does not exist, an
    allocation at the address of a live object, a call through a null or
    dangling pointer. *)
Inductive Result : Type :=
| Running (c : Sys)
| Aborted (e : Signal) (c : Sys)
| Invalid.

Definition call {A : Type} (m : M A) (c : Sys) (k : A → list ptrType)
  : Result :=
  match m (store c) with
  | (Returned _ a, s') => Running (mkSys s' (k a))
  | (Signalled _ e, s') => Aborted e (mkSys s' (live c))
  end.

Definition through (f : T → T) (i : nat) (c : Sys) : Result :=
  match live c !! i with
  | Some l =>
      match get l with
      | Some a =>
          match heap (store c) !! a with
          | Some _ => call (set_heap (alter f a)) c (λ _, live c)
          | None => Invalid
          end
      | None => Invalid
      end
  | None => Invalid
  end.

Definition exec (op : Op) (c : Sys) : Result :=
  match op with
  | OpAdd a v =>
      match heap (store c) !! a with
      | Some _ => Invalid
      | None => call (set_heap (insert a v);; Add (Some a)) c (λ _, live c)
      end
  | OpAddNull => call (Add nullptr) c (λ _, live c)
  | OpAcquire => call Acquire c (λ l, l :: live c)
  | OpRelease i =>
      match live c !! i with
      | Some l => call (ptrType_dtor l) c (λ _, delete i (live c))
      | None => Invalid
      end
  | OpUse i => through UseResource i c
  | OpReset i => through Reset i c
  end.

Fixpoint run (ops : list Op) (c : Sys) : Result :=
  match ops with
  | [] => Running c
  | op :: ops' =>
      match exec op c with
      | Running c' => run ops' c'
      | r => r
      end
  end.

(** A client that has called nothing yet: an empty pool, no lease, and
    whatever else lives in the free store. *)
Definition start (h : gmap positive T) : Sys :=
  mkSys (mkStore (mkSharedPool []) h) [].

Definition reachable (c : Sys) : Prop :=
  ∃ h ops, run ops (start h) = Running c.

(** ** Observations *)

(** The value a call returns, if it returns. *)
Definition value {A : Type} (r : Outcome A * Store) : option A :=
  match r.1 with Returned _ a => Some a | Signalled _ _ => None end.

(** [Size()] as a plain observation of a store. *)
Definition size_of (s : Store) : nat := length (m_pool (this s)).

(** The idle collection: the resources the stack's elements own. *)
Definition idle (s : Store) : list positive := omap id (m_pool (this s)).

(** The resources the live leases own. *)
Definition leased (ls : list ptrType) : list positive := omap get ls.

(** The resources a program passes to [Add], latest first. *)
Fixpoint added (ops : list Op) : list positive :=
  match ops with
  | [] => []
  | OpAdd a _ :: ops' => added ops' ++ [a]
  | _ :: ops' => added ops'
  end.

Definition is_Add (op : Op) : bool :=
  match op with OpAdd _ _ | OpAddNull => true | _ => false end.

Definition is_acquire (op : Op) : bool :=
  match op with OpAcquire => true | _ => false end.

Definition is_release (op : Op) : bool :=
  match op with OpRelease _ => true | _ => false end.

(** A lease as [Acquire] builds it: a resource, and the lambda bound to
    the pool as its deleter. *)
Definition from_Acquire (l : ptrType) : Prop :=
  is_Some (get l) ∧ get_deleter l = return_to_pool.

(** A lease whose deleter is the lambda of [Acquire], bound to the pool;
    the lease may own a resource or, made of a null handle, nothing. *)
Definition bound_to_pool (l : ptrType) : Prop :=
  get_deleter l = return_to_pool.

(** Every live lease is bound to the pool, no resource has two owners, and
    every owned resource is a live object. *)
Record owned_once (c : Sys) : Prop := mkOwnedOnce {
  live_bound : Forall bound_to_pool (live c);
  one_owner : NoDup (idle (store c) ++ leased (live c));
  owned_alive : ∀ a, a ∈ idle (store c) ++ leased (live c) →
                     is_Some (heap (store c) !! a)
}.

(** No null handle, idle or leased: every element of the stack and every
    live lease owns a resource. *)
Definition no_null (c : Sys) : Prop :=
  Forall is_Some (m_pool (this (store c))) ∧
  Forall (λ l, is_Some (get l)) (live c).

(** One [OpAdd] for each new object of [rs], in order. *)
Definition add_all (rs : list (positive * T)) : list Op :=
  (λ r, OpAdd r.1 r.2) <$> rs.

(** [k] times acquire a lease and let it go at once. *)
Definition pairs (k : nat) : list Op :=
  concat (replicate k [OpAcquire; OpRelease 0]).

(** A sequence of acquires and releases in which as many leases end as are
    taken. *)
Definition matched (ops : list Op) : Prop :=
  Forall (λ op, is_acquire op || is_release op) ops ∧
  length (List.filter is_acquire ops) = length (List.filter is_release ops).

(** A release order for [n] live leases: the [k]-th release picks one of
    the [n - k] leases still alive. *)
Fixpoint release_order (n : nat) (order : list nat) : Prop :=
  match n, order with
  | 0, [] => True
  | S n', i :: order' => i < n ∧ release_order n' order'
  | _, _ => False
  end.

(** ** The end of the pool *)

(** The elements of a destroyed [std::stack], one [~unique_ptr<T>()] each.
    The standard does not fix the order in which they go; the free store
    left behind does not depend on it. *)
Fixpoint destroy_elements (st : list unique_ptr) : M unit :=
  match st with
  | [] => mret ()
  | u :: st' => unique_ptr_dtor u;; destroy_elements st'
  end.

(** [virtual ~SharedPool(){}]: the body is empty, then the member [m_pool]
    is destroyed with all its elements. *)
Definition SharedPool_dtor : M unit :=
  st ← get_m_pool;
  destroy_elements st;;
  set_m_pool [].

(** The free store without the objects at the addresses of [l]. *)
Definition freed (l : list positive) (h : gmap positive T) : gmap positive T :=
  foldl (λ h' a, delete a h') h l.

End Model.

(** ** A concrete client

    Resources that hold a number: [UseResource] counts one use, [Reset]
    goes back to zero.  The client makes two resources, at addresses 1 and
    2, adds them in that order, and then holds a lease. *)

Definition count_use : nat → nat := S.

Definition count_reset : nat → nat := λ _, 0.

Definition two_objects : gmap positive nat :=
  <[2%positive := 20]> (<[1%positive := 10]> ∅).

Definition two_idle : @Sys nat :=
  mkSys (mkStore (mkSharedPool [Some 2%positive; Some 1%positive]) two_objects) [].

Definition one_leased : @Sys nat :=
  mkSys (mkStore (mkSharedPool [Some 1%positive]) two_objects)
        [mkLease (Some 2%positive) return_to_pool].

Definition setup : list (@Op nat) := [OpAdd 1 10; OpAdd 2 20; OpAcquire].

(** A busier client: three resources and a null handle are added, then
    three leases are taken, the second of them made of the null handle. *)
Definition three_objects : gmap positive nat :=
  <[3%positive := 30]> two_objects.

Definition busy_setup : list (@Op nat) :=
  [OpAdd 1 10; OpAdd 2 20; OpAddNull; OpAdd 3 30;
   OpAcquire; OpAcquire; OpAcquire].

Definition busy : @Sys nat :=
  mkSys (mkStore (mkSharedPool [Some 1%positive]) three_objects)
        [mkLease (Some 2%positive) return_to_pool;
         mkLease nullptr return_to_pool;
         mkLease (Some 3%positive) return_to_pool].

(** A pool into which a null handle was added on top of resource 1. *)
Definition null_on_top : @Sys nat :=
  mkSys (mkStore (mkSharedPool [None; Some 1%positive]) two_objects) [].

(** * Properties *)

Section Properties.

Context {T : Type}.
Variables UseResource Reset : T → T.

Local Abbreviation exec := (exec UseResource Reset).
Local Abbreviation run := (run UseResource Reset).
Local Abbreviation reachable := (reachable UseResource Reset).

Implicit Types (s : @Store T) (c : @Sys T) (l : @ptrType T).
Implicit Types (t : unique_ptr) (a : positive) (v : T).
Implicit Types (op : @Op T) (ops : list (@Op T)) (h : gmap positive T).

(** ** The member functions, call by call *)

Lemma Add_call t s :
  Add t s = (Returned _ (), mkStore (mkSharedPool (t :: m_pool (this s))) (heap s)).
Proof. reflexivity. Qed.

Lemma Acquire_exhausted s :
  m_pool (this s) = [] → Acquire s = (Signalled _ PoolExhausted, s).
Proof.
  destruct s as [[st] h]. simpl. intros ->. reflexivity.
Qed.

Lemma Acquire_top t rest s :
  m_pool (this s) = t :: rest →
  Acquire s
  = (Returned _ (mkLease t return_to_pool), mkStore (mkSharedPool rest) (heap s)).
Proof.
  destruct s as [[st] h]. simpl. intros ->. reflexivity.
Qed.

Lemma release_call l a s :
  get l = Some a → get_deleter l = return_to_pool →
  ptrType_dtor l s = Add (Some a) s.
Proof. intros G D. unfold ptrType_dtor. rewrite G, D. reflexivity. Qed.

Lemma release_null l s : get l = nullptr → ptrType_dtor l s = (Returned _ (), s).
Proof. intros G. unfold ptrType_dtor. rewrite G. reflexivity. Qed.

(** A null handle is no resource: [Add] takes it and [Size()] counts it,
    but the lease [Acquire] makes of it owns nothing, and its end gives
    nothing back to the pool. *)
Lemma null_handle_not_returned s :
  ∃ l s', Acquire (Add nullptr s).2 = (Returned _ l, s') ∧
          get l = nullptr ∧
          ptrType_dtor l s' = (Returned _ (), s') ∧
          size_of s' = size_of s.
Proof.
  eexists _, _. split; [by apply (Acquire_top nullptr (m_pool (this s)))|].
  by repeat split.
Qed.

(** ** The client's steps *)

Lemma exec_Add a v c :
  heap (store c) !! a = None →
  exec (OpAdd a v) c
  = Running (mkSys (mkStore (mkSharedPool (Some a :: m_pool (this (store c))))
                            (<[a:=v]> (heap (store c))))
                   (live c)).
Proof. intros H. unfold exec. rewrite H. reflexivity. Qed.

Lemma exec_Acquire t rest c :
  m_pool (this (store c)) = t :: rest →
  exec OpAcquire c
  = Running (mkSys (mkStore (mkSharedPool rest) (heap (store c)))
                   (mkLease t return_to_pool :: live c)).
Proof. intros E. unfold exec, call. rewrite (Acquire_top _ _ _ E). reflexivity. Qed.

Lemma exec_Acquire_exhausted c :
  m_pool (this (store c)) = [] → exec OpAcquire c = Aborted PoolExhausted c.
Proof.
  intros E. unfold exec, call. rewrite (Acquire_exhausted _ E).
  destruct c; reflexivity.
Qed.

Lemma exec_Release i l a c :
  live c !! i = Some l → get l = Some a → get_deleter l = return_to_pool →
  exec (OpRelease i) c
  = Running (mkSys (mkStore (mkSharedPool (Some a :: m_pool (this (store c))))
                            (heap (store c)))
                   (delete i (live c))).
Proof.
  intros L G D. unfold exec, call. rewrite L, (release_call _ _ _ G D).
  reflexivity.
Qed.

Lemma exec_Release_null i l c :
  live c !! i = Some l → get l = nullptr →
  exec (OpRelease i) c = Running (mkSys (store c) (delete i (live c))).
Proof.
  intros L G. unfold exec, call. by rewrite L, (release_null l _ G).
Qed.

Lemma exec_AddNull c :
  exec OpAddNull c
  = Running (mkSys (mkStore (mkSharedPool (nullptr :: m_pool (this (store c))))
                            (heap (store c)))
                   (live c)).
Proof. reflexivity. Qed.

Lemma through_Running f i c c' :
  through f i c = Running c' →
  ∃ l a, live c !! i = Some l ∧ get l = Some a ∧ is_Some (heap (store c) !! a) ∧
         c' = mkSys (mkStore (this (store c)) (alter f a (heap (store c)))) (live c).
Proof.
  unfold through. destruct (live c !! i) as [l|]; [|discriminate].
  destruct (get l) as [a|] eqn:G; [|discriminate].
  destruct (heap (store c) !! a) as [v|] eqn:H; [|discriminate].
  unfold call. simpl. intros [= <-]. exists l, a. rewrite H. eauto.
Qed.

(** ** Ownership is preserved by every step *)

Lemma leased_delete i l a (ls : list (@ptrType T)) :
  ls !! i = Some l → get l = Some a → leased ls ≡ₚ a :: leased (delete i ls).
Proof.
  intros L G. unfold leased.
  rewrite (delete_Permutation ls i l L) at 1. simpl. rewrite G. reflexivity.
Qed.

Lemma leased_delete_null i l (ls : list (@ptrType T)) :
  ls !! i = Some l → get l = nullptr → leased ls ≡ₚ leased (delete i ls).
Proof.
  intros L G. unfold leased.
  rewrite (delete_Permutation ls i l L) at 1. csimpl. by rewrite G.
Qed.

Lemma size_of_idle s :
  Forall is_Some (m_pool (this s)) → length (idle s) = size_of s.
Proof.
  unfold idle, size_of. generalize (m_pool (this s)).
  induction 1 as [|t st [a ->] _ IH]; csimpl; [done|]. by rewrite IH.
Qed.

Lemma leased_length (ls : list (@ptrType T)) :
  Forall from_Acquire ls → length (leased ls) = length ls.
Proof.
  unfold leased. induction 1 as [|l ls [[a G] _] _ IH]; csimpl; [done|].
  rewrite G. csimpl. by rewrite IH.
Qed.

Lemma owned_once_step op c c' :
  owned_once c → exec op c = Running c' →
  owned_once c' ∧
  idle (store c') ++ leased (live c') ≡ₚ
    added [op] ++ idle (store c) ++ leased (live c).
Proof.
  intros [LB ND AL] E. destruct op as [a v| | |i|i|i].
  - (* Add of a new object *)
    destruct (heap (store c) !! a) eqn:H.
    { unfold exec in E. by rewrite H in E. }
    rewrite (exec_Add a v c H) in E. injection E as <-.
    assert (a ∉ idle (store c) ++ leased (live c)) as Fresh.
    { intros [w Hw]%AL. congruence. }
    split; [split; simpl|done].
    + done.
    + unfold idle. simpl. by constructor.
    + unfold idle. simpl. intros b [->|Hb]%elem_of_cons.
      * rewrite lookup_insert_eq. by eexists.
      * destruct (decide (a = b)) as [->|Hne]; [done|].
        rewrite lookup_insert_ne by done. by apply AL.
  - (* Add of a null handle *)
    rewrite exec_AddNull in E. injection E as <-. by split.
  - (* Acquire *)
    destruct (m_pool (this (store c))) as [|t rest] eqn:P.
    { by rewrite (exec_Acquire_exhausted c P) in E. }
    rewrite (exec_Acquire t rest c P) in E. injection E as <-.
    assert (Forall bound_to_pool (mkLease t return_to_pool :: live c)) as LB'.
    { by constructor. }
    destruct t as [a|].
    + assert (idle (store c) = a :: omap id rest) as I
        by (unfold idle; by rewrite P).
      rewrite I in *.
      assert (omap id rest ++ a :: leased (live c)
              ≡ₚ a :: omap id rest ++ leased (live c)) as Pm.
      { by rewrite Permutation_middle. }
      split; [split; simpl|by simpl].
      * done.
      * unfold idle. simpl.
        change (NoDup (omap id rest ++ a :: leased (live c))). by rewrite Pm.
      * unfold idle. simpl. intros b Hb. apply AL.
        change (b ∈ omap id rest ++ a :: leased (live c)) in Hb.
        by rewrite Pm in Hb.
    + assert (idle (store c) = omap id rest) as I
        by (unfold idle; by rewrite P).
      rewrite I in *. by split.
  - (* Release *)
    destruct (live c !! i) as [l|] eqn:L.
    2:{ unfold exec in E. by rewrite L in E. }
    pose proof (proj1 (Forall_lookup _ _) LB i l L) as D.
    pose proof (Forall_delete _ _ i LB) as LB'.
    destruct (get l) as [a|] eqn:G.
    + rewrite (exec_Release i l a c L G D) in E. injection E as <-.
      pose proof (leased_delete i l a (live c) L G) as Pl.
      assert (a :: idle (store c) ++ leased (delete i (live c))
              ≡ₚ idle (store c) ++ leased (live c)) as Pm.
      { by rewrite Pl, Permutation_middle. }
      split; [split; simpl|by simpl].
      * done.
      * unfold idle. simpl. fold (idle (store c)). by rewrite Pm.
      * unfold idle. simpl. fold (idle (store c)). intros b Hb. apply AL.
        by rewrite <- Pm.
    + rewrite (exec_Release_null i l c L G) in E. injection E as <-.
      pose proof (leased_delete_null i l (live c) L G) as Pl.
      split; [split; simpl|by simpl; rewrite Pl].
      * done.
      * by rewrite <- Pl.
      * intros b Hb. apply AL. by rewrite Pl.
  - (* UseResource *)
    apply through_Running in E as (l & a & _ & _ & _ & ->).
    split; [split; simpl; try done|by simpl].
    intros b Hb. apply AL in Hb. rewrite lookup_alter.
    case_decide; subst; [by apply fmap_is_Some|done].
  - (* Reset *)
    apply through_Running in E as (l & a & _ & _ & _ & ->).
    split; [split; simpl; try done|by simpl].
    intros b Hb. apply AL in Hb. rewrite lookup_alter.
    case_decide; subst; [by apply fmap_is_Some|done].
Qed.

Lemma added_cons op ops : added (op :: ops) = added ops ++ added [op].
Proof. destruct op; simpl; by rewrite ?app_nil_r. Qed.

Lemma owned_once_run ops c c' :
  owned_once c → run ops c = Running c' →
  owned_once c' ∧
  idle (store c') ++ leased (live c') ≡ₚ
    added ops ++ idle (store c) ++ leased (live c).
Proof.
  revert c. induction ops as [|op ops IH]; intros c O R; simpl in R.
  - injection R as <-. by split.
  - destruct (exec op c) as [c1| |] eqn:E; try discriminate.
    destruct (owned_once_step op c c1 O E) as [O1 P1].
    destruct (IH c1 O1 R) as [O' P']. split; [done|].
    rewrite (added_cons op ops), P', P1. by rewrite <- (assoc_L (++)).
Qed.

Lemma owned_once_start h : owned_once (start h).
Proof.
  split; simpl; [constructor|constructor|].
  intros a Ha. by apply elem_of_nil in Ha.
Qed.

Lemma reachable_owned_once c : reachable c → owned_once c.
Proof.
  intros (h & ops & R).
  exact (proj1 (owned_once_run ops (start h) c (owned_once_start h) R)).
Qed.

Lemma omap_lookup_inj {A B} (f : A → option B) (ls : list A) i j x y b :
  NoDup (omap f ls) → ls !! i = Some x → ls !! j = Some y →
  f x = Some b → f y = Some b → i = j.
Proof.
  revert i j. induction ls as [|z ls IH]; intros i j ND Li Lj Fx Fy.
  { by destruct i. }
  assert (∀ k w, ls !! k = Some w → f w = Some b → b ∈ omap f ls) as In.
  { intros k w Lk Fw. apply list_elem_of_omap. exists w. split; [|done].
    apply list_elem_of_lookup. by exists k. }
  destruct i as [|i], j as [|j]; simpl in Li, Lj.
  - done.
  - injection Li as ->. exfalso. csimpl in ND. rewrite Fx in ND. csimpl in ND.
    apply NoDup_cons in ND as [Hb _]. apply Hb. by apply (In j y).
  - injection Lj as ->. exfalso. csimpl in ND. rewrite Fy in ND. csimpl in ND.
    apply NoDup_cons in ND as [Hb _]. apply Hb. by apply (In i x).
  - f_equal. apply IH; try done. csimpl in ND.
    destruct (f z); csimpl in ND; [by apply NoDup_cons in ND as [_ ?]|done].
Qed.

(** ** Single calls *)

(** C8: [Empty] and [Size] are pure observers.  In every store, [Empty()]
    returns true exactly when the idle collection [m_pool] has no element,
    [Size()] returns the number of its elements, and each call leaves the
    store as it found it. *)
Theorem Empty_Size_pure_observers s :
  Empty s = (Returned _ (bool_decide (m_pool (this s) = [])), s) ∧
  Size s = (Returned _ (length (m_pool (this s))), s).
Proof.
  destruct s as [[[|t st]] h]; split; reflexivity.
Qed.

(** C9: [Add] has no failure path.  In every store and for every resource
    handle, the call returns (it never signals), the handle becomes the
    newest element of the idle collection, [Size()] grows by one, and the
    free store is not touched. *)
Theorem Add_always_succeeds t s :
  ∃ s', Add t s = (Returned _ (), s') ∧
        m_pool (this s') = t :: m_pool (this s) ∧
        value (Size s') = S <$> value (Size s) ∧
        heap s' = heap s.
Proof. eexists. rewrite Add_call. repeat split. Qed.

(** C3: [Acquire] on a pool whose [Size()] is 0 signals [PoolExhausted]
    and leaves the store as it was; on a pool whose [Size()] is not 0 it
    returns a lease and does not signal. *)
Theorem Acquire_signals_iff_exhausted s :
  (value (Size s) = Some 0 → Acquire s = (Signalled _ PoolExhausted, s)) ∧
  (value (Size s) ≠ Some 0 → ∃ l s', Acquire s = (Returned _ l, s')).
Proof.
  destruct (m_pool (this s)) as [|t rest] eqn:E; split; intros Hs.
  - by apply Acquire_exhausted.
  - exfalso. apply Hs. unfold value, Size, stack_size. simpl. by rewrite E.
  - unfold value, Size, stack_size in Hs. simpl in Hs. by rewrite E in Hs.
  - rewrite (Acquire_top t rest s E). eauto.
Qed.

(** C7: a pool seeded with the one resource [A] (what [Add] of [A] makes of
    the empty pool).  The first [Acquire] returns the lease of [A] and
    leaves [Size()] at 0; the second [Acquire], with no release in
    between, signals [PoolExhausted]. *)
Theorem two_Acquire_on_one_resource a h :
  let seeded := mkStore (mkSharedPool [Some a]) h in
  (Add (Some a) (mkStore (mkSharedPool []) h)).2 = seeded ∧
  ∃ s', Acquire seeded = (Returned _ (mkLease (Some a) return_to_pool), s') ∧
        value (Size s') = Some 0 ∧
        Acquire s' = (Signalled _ PoolExhausted, s').
Proof.
  intros seeded. split; [reflexivity|].
  eexists. split; [by apply (Acquire_top (Some a) [])|].
  split; [reflexivity|by apply Acquire_exhausted].
Qed.

(** C6: selection is last-in-first-out.  [Acquire] on a non-empty idle
    collection removes and returns its newest element: the handle just
    passed to [Add], or the resource of the lease just released; and of two
    resources added one after the other, the later one is acquired first,
    the earlier one second. *)
Theorem Acquire_takes_latest_insertion t t' a s :
  let pool_of s := m_pool (this s) in
  let after_Add := (Add t s).2 in
  let after_release := (ptrType_dtor (mkLease (Some a) return_to_pool) s).2 in
  let after_two := (Add t' (Add t s).2).2 in
  (∃ s', Acquire after_Add = (Returned _ (mkLease t return_to_pool), s') ∧
         pool_of s' = pool_of s) ∧
  (∃ s', Acquire after_release
         = (Returned _ (mkLease (Some a) return_to_pool), s') ∧
         pool_of s' = pool_of s) ∧
  (∃ s1 s2, Acquire after_two = (Returned _ (mkLease t' return_to_pool), s1) ∧
            Acquire s1 = (Returned _ (mkLease t return_to_pool), s2) ∧
            pool_of s2 = pool_of s).
Proof.
  intros pool_of after_Add after_release after_two.
  destruct s as [[st] h]. repeat split.
  - eexists. split; [by apply (Acquire_top t st)|done].
  - eexists. split; [by apply (Acquire_top (Some a) st)|done].
  - eexists _, _. split; [by apply (Acquire_top t' (t :: st))|].
    split; [by apply (Acquire_top t st)|done].
Qed.

(** ** Leases and reachable states *)

(** C4: exclusive ownership.  In every state a client reaches from an
    empty pool by [Add] (of newly made objects or of null handles),
    [Acquire], release of a lease (and use of a leased resource), the
    resources that were added are exactly the idle and the leased ones; no
    resource is idle twice, none is idle and leased, and no two live leases
    own the same resource. *)
Theorem exclusive_ownership h ops c :
  run ops (start h) = Running c →
  (∀ a, a ∈ added ops ↔ a ∈ idle (store c) ∨ a ∈ leased (live c)) ∧
  NoDup (idle (store c)) ∧
  (∀ a, a ∈ idle (store c) → a ∉ leased (live c)) ∧
  (∀ i j l l' a, live c !! i = Some l → live c !! j = Some l' →
                 get l = Some a → get l' = Some a → i = j).
Proof.
  intros R.
  destruct (owned_once_run ops _ c (owned_once_start h) R) as [[LB ND AL] P].
  simpl in P. rewrite app_nil_r in P.
  apply NoDup_app in ND as (NI & Disj & NL).
  repeat split; try done.
  - intros Ha. rewrite <- P in Ha. by apply elem_of_app in Ha.
  - intros Ha. rewrite <- P. by apply elem_of_app.
  - intros i j l l' a. by apply omap_lookup_inj.
Qed.

(** C2 (as amended): one re-insertion per lease that owns a resource.  For
    every live lease of a reachable state the end of the lease runs; when
    the lease owns a resource it is exactly one call of the pool's [Add] on
    that resource: [Size()] grows by exactly one, and afterwards the
    resource occurs exactly once in the idle collection and in no live
    lease.  When the lease owns nothing, being made of a null handle, its
    end calls nothing and leaves the store as it is. *)
Theorem release_reinserts_exactly_once c i l :
  reachable c → live c !! i = Some l →
  ∃ c', exec (OpRelease i) c = Running c' ∧
        live c' = delete i (live c) ∧
        match get l with
        | Some a =>
            ptrType_dtor l (store c) = Add (Some a) (store c) ∧
            size_of (store c') = S (size_of (store c)) ∧
            count_occ Pos.eq_dec (idle (store c')) a = 1 ∧
            a ∉ leased (live c')
        | None => store c' = store c
        end.
Proof.
  intros O%reachable_owned_once L.
  pose proof (proj1 (Forall_lookup _ _) (live_bound _ O) i l L) as D.
  destruct (get l) as [a|] eqn:G.
  - pose proof (exec_Release i l a c L G D) as E.
    destruct (owned_once_step _ _ _ O E) as [[_ ND _] _].
    apply NoDup_app in ND as (NI & Disj & _).
    eexists. split; [exact E|]. split; [done|].
    split; [by apply release_call|]. split; [done|]. split.
    + apply NoDup_ListNoDup in NI.
      apply (proj1 (NoDup_count_occ' Pos.eq_dec _) NI). by left.
    + apply Disj. by left.
  - eexists. split; [by apply (exec_Release_null i l)|]. by split.
Qed.

(** C10: the release path leaves the resource as the borrower left it.
    When a lease of a reachable state owns the object at [a], whose state
    is [v], the end of the lease changes no object of the free store, and
    the [Acquire] that follows hands out the same object still in state
    [v]; in particular not in state [Reset v] when that differs. *)
Theorem release_keeps_resource_state c i l a v :
  reachable c → live c !! i = Some l → get l = Some a →
  heap (store c) !! a = Some v →
  ∃ c' c'', exec (OpRelease i) c = Running c' ∧
            heap (store c') = heap (store c) ∧
            exec OpAcquire c' = Running c'' ∧
            get <$> head (live c'') = Some (Some a) ∧
            heap (store c'') !! a = Some v ∧
            (Reset v ≠ v → heap (store c'') !! a ≠ Some (Reset v)).
Proof.
  intros O%reachable_owned_once L G H.
  pose proof (proj1 (Forall_lookup _ _) (live_bound _ O) i l L) as D.
  eexists _, _. split; [exact (exec_Release i l a c L G D)|].
  split; [done|]. split; [by apply exec_Acquire|].
  simpl. repeat split; [done|]. intros Hne. rewrite H. congruence.
Qed.

(** ** Sequences of calls *)

Lemma run_app ops1 ops2 c :
  run (ops1 ++ ops2) c
  = match run ops1 c with Running c1 => run ops2 c1 | r => r end.
Proof.
  revert c. induction ops1 as [|op ops1 IH]; intros c; simpl; [done|].
  destruct (exec op c); [apply IH|done..].
Qed.

Lemma run_add_all (rs : list (positive * T)) c :
  NoDup rs.*1 → (∀ a, a ∈ rs.*1 → heap (store c) !! a = None) →
  ∃ c', run (add_all rs) c = Running c' ∧
        m_pool (this (store c'))
        = (Some <$> reverse rs.*1) ++ m_pool (this (store c)) ∧
        live c' = live c.
Proof.
  revert c. induction rs as [|[a v] rs IH]; intros c ND Fresh.
  { exists c. by repeat split. }
  apply NoDup_cons in ND as [Ha ND].
  change (add_all ((a, v) :: rs)) with (OpAdd a v :: add_all rs). cbn [run].
  rewrite (exec_Add a v c) by (apply Fresh; by left).
  edestruct IH as (c' & R & P & L); [exact ND| |].
  2:{ exists c'. split; [exact R|]. split; [|exact L].
      rewrite P. simpl. rewrite reverse_cons, fmap_app.
      by rewrite <- (assoc_L (++)). }
  simpl. intros b Hb. rewrite lookup_insert_ne.
  - apply Fresh. by right.
  - intros ->. by apply Ha.
Qed.

Lemma run_pairs k a rest c :
  m_pool (this (store c)) = Some a :: rest →
  ∃ c', run (pairs k) c = Running c' ∧
        m_pool (this (store c')) = m_pool (this (store c)) ∧
        heap (store c') = heap (store c) ∧
        live c' = live c.
Proof.
  revert c. induction k as [|k IH]; intros c P.
  { exists c. by repeat split. }
  change (pairs (S k)) with (@OpAcquire T :: OpRelease 0 :: pairs k).
  cbn [run]. rewrite (exec_Acquire (Some a) rest c P).
  erewrite (exec_Release 0 _ a); [|reflexivity..].
  destruct (IH (mkSys (mkStore (mkSharedPool (Some a :: rest)) (heap (store c)))
                     (live c)) eq_refl) as (c' & R & P' & H' & L').
  exists c'. split; [exact R|]. rewrite P', H', L', P. done.
Qed.

Lemma delete_app_l {A} i (l1 l2 : list A) :
  i < length l1 → delete i (l1 ++ l2) = delete i l1 ++ l2.
Proof.
  revert i. induction l1 as [|x l1 IH]; intros [|i] Hi; simpl in *;
    [lia..|done|]. f_equal. apply IH. lia.
Qed.

Lemma run_acquire_all k (st : list unique_ptr) c :
  m_pool (this (store c)) = st → k ≤ length st →
  run (replicate k OpAcquire) c
  = Running (mkSys (mkStore (mkSharedPool (drop k st)) (heap (store c)))
                   (reverse ((λ t, mkLease t return_to_pool) <$> take k st)
                    ++ live c)).
Proof.
  revert st c. induction k as [|k IH]; intros st c P Hk.
  { simpl. rewrite drop_0, <- P. by destruct c as [[[?] ?] ?]. }
  destruct st as [|t st]; simpl in Hk; [lia|].
  cbn [replicate run]. rewrite (exec_Acquire t st c P).
  rewrite (IH st (mkSys (mkStore (mkSharedPool st) _) _) eq_refl) by lia.
  simpl. rewrite reverse_cons. by rewrite <- (assoc_L (++)).
Qed.

Lemma run_release_all n (order : list nat)
    (new old : list (@ptrType T)) (st : list unique_ptr) h :
  length new = n → Forall from_Acquire new → release_order n order →
  ∃ st', run (OpRelease <$> order) (mkSys (mkStore (mkSharedPool st) h) (new ++ old))
         = Running (mkSys (mkStore (mkSharedPool st') h) old) ∧
         st' ≡ₚ (get <$> new) ++ st.
Proof.
  revert order new st. induction n as [|n IH]; intros order new st Hn F Ho.
  { destruct order; [|done]. destruct new; [|done]. by exists st. }
  destruct order as [|i order]; [done|]. destruct Ho as [Hi Ho].
  rewrite <- Hn in Hi. destruct (lookup_lt_is_Some_2 new i Hi) as [l L].
  destruct (proj1 (Forall_lookup _ _) F i l L) as [[a G] D].
  cbn [fmap list_fmap run].
  erewrite (exec_Release i l a); [|by simpl; rewrite lookup_app_l|done..].
  simpl. rewrite delete_app_l by done.
  destruct (IH order (delete i new) (Some a :: st)) as (st' & R & P).
  - rewrite length_delete by eauto. lia.
  - by apply Forall_delete.
  - done.
  - exists st'. split; [exact R|]. rewrite P.
    rewrite (delete_Permutation new i l L) at 2. csimpl. rewrite G.
    by rewrite Permutation_middle.
Qed.

Lemma run_add_all_inv (rs : list (positive * T)) c c' :
  run (add_all rs) c = Running c' →
  m_pool (this (store c'))
  = (Some <$> reverse rs.*1) ++ m_pool (this (store c)) ∧
  live c' = live c.
Proof.
  revert c. induction rs as [|[a v] rs IH]; intros c R.
  { injection R as <-. by split. }
  change (add_all ((a, v) :: rs)) with (OpAdd a v :: add_all rs) in R.
  cbn [run] in R. destruct (heap (store c) !! a) eqn:H.
  { unfold exec in R. by rewrite H in R. }
  rewrite (exec_Add a v c H) in R. destruct (IH _ R) as [P L].
  split; [|exact L]. rewrite P. simpl.
  rewrite reverse_cons, fmap_app. by rewrite <- (assoc_L (++)).
Qed.

(** Without null handles an acquire or a release moves one resource
    between the pool and the leases. *)
Lemma acquire_release_step op c c' :
  owned_once c → no_null c → is_acquire op || is_release op →
  exec op c = Running c' →
  no_null c' ∧
  size_of (store c') + length (live c')
  = size_of (store c) + length (live c) ∧
  length (live c') + (if is_release op then 1 else 0)
  = length (live c) + (if is_acquire op then 1 else 0).
Proof.
  intros O [PV LV] Hop E. destruct op as [a v| | |i|i|i]; try done.
  - destruct (m_pool (this (store c))) as [|t rest] eqn:P.
    { by rewrite (exec_Acquire_exhausted c P) in E. }
    rewrite (exec_Acquire t rest c P) in E. injection E as <-.
    apply Forall_cons in PV as [Ht PV]. unfold size_of. rewrite P. simpl.
    repeat split; [done|by constructor|lia..].
  - destruct (live c !! i) as [l|] eqn:L.
    2:{ unfold exec in E. by rewrite L in E. }
    pose proof (proj1 (Forall_lookup _ _) (live_bound _ O) i l L) as D.
    destruct (proj1 (Forall_lookup _ _) LV i l L) as [a G].
    rewrite (exec_Release i l a c L G D) in E. injection E as <-.
    apply lookup_lt_Some in L as Hi. unfold size_of. simpl.
    rewrite length_delete by eauto.
    repeat split; [constructor; [by eexists|done]|by apply Forall_delete|lia..].
Qed.

Lemma acquire_release_run ops c c' :
  owned_once c → no_null c →
  Forall (λ op, is_acquire op || is_release op) ops →
  run ops c = Running c' →
  size_of (store c') + length (live c')
  = size_of (store c) + length (live c) ∧
  length (live c') + length (List.filter is_release ops)
  = length (live c) + length (List.filter is_acquire ops).
Proof.
  intros O N F. revert c O N.
  induction F as [|op ops Hop F IH]; intros c O N R.
  { injection R as <-. simpl. lia. }
  cbn [run] in R. destruct (exec op c) as [c1| |] eqn:E; try discriminate.
  destruct (owned_once_step op c c1 O E) as [O1 _].
  destruct (acquire_release_step op c c1 O N Hop E) as (N1 & S1 & L1).
  destruct (IH c1 O1 N1 R) as [S2 L2].
  destruct op as [a v| | |i|i|i]; try done; simpl in *; lia.
Qed.

(** The resources, idle and leased, are those there were and those added. *)
Lemma run_resources ops c c' :
  owned_once c → run ops c = Running c' →
  length (idle (store c')) + length (leased (live c'))
  = length (added ops) + length (idle (store c)) + length (leased (live c)).
Proof.
  intros O R. destruct (owned_once_run ops c c' O R) as [_ P].
  apply Permutation_length in P. rewrite !length_app in P. lia.
Qed.

(** C1 (as amended): a run of [Add] calls on newly made objects, followed
    by acquires and releases, from a reachable state that holds no null
    handle, idle or leased.  [Size()] after the run is [Size()] before it
    plus the number of [Add] calls: whenever as many leases end as are
    taken, the acquires and releases leave [Size()] and the number of live
    leases where they were.  For [k] acquire-and-release pairs in a row the
    run reaches its end without a signal as soon as the pool is not empty
    at the first [Acquire]; the added resources are then idle on top of
    the older ones and the live leases are as before. *)
Theorem Add_then_pairs_Size (rs : list (positive * T)) c :
  reachable c → no_null c →
  (∀ ops c', matched ops → run (add_all rs ++ ops) c = Running c' →
             size_of (store c') = size_of (store c) + length rs ∧
             length (live c') = length (live c)) ∧
  (NoDup rs.*1 → (∀ a, a ∈ rs.*1 → heap (store c) !! a = None) →
   ∀ k, k = 0 ∨ 0 < size_of (store c) + length rs →
        ∃ c', run (add_all rs ++ pairs k) c = Running c' ∧
              size_of (store c') = size_of (store c) + length rs ∧
              idle (store c') = reverse rs.*1 ++ idle (store c) ∧
              live c' = live c).
Proof.
  intros O%reachable_owned_once [PV LV].
  assert (∀ c1, run (add_all rs) c = Running c1 →
                size_of (store c1) = size_of (store c) + length rs ∧
                no_null c1 ∧
                m_pool (this (store c1))
                = (Some <$> reverse rs.*1) ++ m_pool (this (store c)) ∧
                live c1 = live c) as After.
  { intros c1 R1. destruct (run_add_all_inv rs c c1 R1) as [P1 L1].
    split; [|split; [split|done]].
    - unfold size_of. rewrite P1.
      rewrite length_app, length_fmap, length_reverse, length_fmap. lia.
    - rewrite P1. apply Forall_app. split; [|done].
      apply Forall_fmap, Forall_true. by eexists.
    - by rewrite L1. }
  split.
  - intros ops c' [F M] R. rewrite run_app in R.
    destruct (run (add_all rs) c) as [c1| |] eqn:R1; try discriminate.
    destruct (After c1 eq_refl) as (S1 & N1 & _ & L1).
    destruct (owned_once_run _ _ _ O R1) as [O1 _].
    destruct (acquire_release_run ops c1 c' O1 N1 F R) as [Sz Lc].
    rewrite L1 in *. lia.
  - intros ND Fresh k Hk.
    destruct (run_add_all rs c ND Fresh) as (c1 & R1 & _ & _).
    destruct (After c1 R1) as (S1 & [PV1 _] & P1 & L1).
    assert (∃ c', run (pairs k) c1 = Running c' ∧
                  m_pool (this (store c')) = m_pool (this (store c1)) ∧
                  live c' = live c1) as (c' & R & P & L).
    { destruct (m_pool (this (store c1))) as [|[a|] rest] eqn:E.
      - destruct Hk as [->|Hk]; [by exists c1|]. exfalso.
        unfold size_of in S1 at 1. rewrite E in S1. simpl in S1. lia.
      - destruct (run_pairs k a rest c1 E) as (c' & R & P & _ & L).
        exists c'. by rewrite <- E.
      - exfalso. by apply Forall_cons in PV1 as [[? [=]] _]. }
    exists c'. rewrite run_app, R1. split; [exact R|].
    unfold size_of, idle. rewrite P, L, L1. repeat split.
    + exact S1.
    + rewrite P1, omap_app. f_equal. generalize (reverse rs.*1).
      intros l0. induction l0 as [|x l0 IH0]; csimpl; [done|]. by rewrite IH0.
Qed.

(** C5 (as amended): acquire everything, release everything.  From a pool
    whose [n] elements each own a resource (none is a null handle), each
    of [n] calls of [Acquire] returns a lease and lowers
    [Size()] by one, down to 0; whatever the order in which the [n] leases
    then end, all releases run, [Size()] is [n] again, the idle collection
    holds the resources it held at the start, and the leases that were
    alive before are untouched. *)
Theorem acquire_all_release_all c (order : list nat) :
  let n := size_of (store c) in
  Forall is_Some (m_pool (this (store c))) →
  release_order n order →
  (∀ k, k ≤ n → ∃ ck, run (replicate k OpAcquire) c = Running ck ∧
                      size_of (store ck) = n - k) ∧
  ∃ c0 c', run (replicate n OpAcquire) c = Running c0 ∧
           size_of (store c0) = 0 ∧
           run (OpRelease <$> order) c0 = Running c' ∧
           size_of (store c') = n ∧
           idle (store c') ≡ₚ idle (store c) ∧
           live c' = live c.
Proof.
  intros n PV Ho. split.
  { intros k Hk. eexists. split; [by apply run_acquire_all|].
    unfold size_of. simpl. apply length_drop. }
  pose proof (run_acquire_all (length (m_pool (this (store c)))) _ c
                eq_refl (le_n _)) as R0.
  rewrite drop_all, firstn_all in R0.
  set (new := reverse ((λ t, mkLease t return_to_pool)
                       <$> m_pool (this (store c)))) in R0.
  assert (Forall from_Acquire new) as F.
  { unfold new. apply Forall_reverse, Forall_fmap.
    eapply Forall_impl; [exact PV|]. by intros t Ht. }
  assert (length new = n) as Hn.
  { unfold new. by rewrite length_reverse, length_fmap. }
  destruct (run_release_all n order new (live c) [] (heap (store c)) Hn F Ho)
    as (st' & R & P).
  eexists _, _. split; [exact R0|]. split; [done|]. split; [exact R|].
  assert (st' ≡ₚ m_pool (this (store c))) as P'.
  { rewrite P, app_nil_r. unfold new. rewrite fmap_reverse, reverse_Permutation.
    rewrite <- list_fmap_compose. simpl. by rewrite list_fmap_id. }
  unfold size_of, idle. simpl. by rewrite P'.
Qed.

End Properties.

(** * The properties at the concrete client *)

Lemma start_reachable :
  reachable count_use count_reset (start (T:=nat) ∅).
Proof. by exists ∅, []. Qed.

Lemma one_leased_reachable : reachable count_use count_reset one_leased.
Proof. exists ∅, setup. vm_compute. reflexivity. Qed.


Lemma busy_reachable : reachable count_use count_reset busy.
Proof. exists ∅, busy_setup. vm_compute. reflexivity. Qed.

Lemma null_on_top_reachable : reachable count_use count_reset null_on_top.
Proof.
  exists {[2%positive := 20]}, [OpAdd 1 10; OpAddNull]. vm_compute. reflexivity.
Qed.

Lemma Add_then_pairs_Size_witness :
  no_null (start (T:=nat) ∅) ∧
  (∀ ops c', matched ops →
             run count_use count_reset
                 (add_all [(1%positive, 10); (2%positive, 20)] ++ ops)
                 (start ∅) = Running c' →
             size_of (store c') = size_of (store (start (T:=nat) ∅)) + 2 ∧
             length (live c') = length (live (start (T:=nat) ∅))) ∧
  (NoDup [(1%positive, 10); (2%positive, 20)].*1 →
   (∀ a, a ∈ [(1%positive, 10); (2%positive, 20)].*1 →
         heap (store (start (T:=nat) ∅)) !! a = None) →
   ∀ k, k = 0 ∨ 0 < size_of (store (start (T:=nat) ∅)) + 2 →
        ∃ c', run count_use count_reset
                  (add_all [(1%positive, 10); (2%positive, 20)] ++ pairs k)
                  (start ∅) = Running c' ∧
              size_of (store c') = size_of (store (start (T:=nat) ∅)) + 2 ∧
              idle (store c')
              = [2%positive; 1%positive] ++ idle (store (start (T:=nat) ∅)) ∧
              live c' = live (start (T:=nat) ∅)).
Proof.
  assert (no_null (start (T:=nat) ∅)) as N by (split; constructor).
  split; [exact N|].
  exact (Add_then_pairs_Size count_use count_reset
           [(1%positive, 10); (2%positive, 20)] (start ∅)
           start_reachable N).
Defined.

Lemma Acquire_signals_iff_exhausted_witness :
  (value (Size (store (start (T:=nat) ∅))) = Some 0 ∧
   Acquire (store (start (T:=nat) ∅))
   = (Signalled _ PoolExhausted, store (start ∅))) ∧
  (value (Size (store two_idle)) ≠ Some 0 ∧
   ∃ l s', Acquire (store two_idle) = (Returned _ l, s')).
Proof.
  split.
  - split; [reflexivity|].
    apply (proj1 (Acquire_signals_iff_exhausted (store (start ∅)))).
    reflexivity.
  - assert (value (Size (store two_idle)) ≠ Some 0) as N by (simpl; discriminate).
    split; [exact N|].
    apply (proj2 (Acquire_signals_iff_exhausted (store two_idle))). exact N.
Defined.

Lemma exclusive_ownership_witness :
  run count_use count_reset busy_setup (start ∅) = Running busy ∧
  (∀ a, a ∈ added busy_setup ↔
        a ∈ idle (store busy) ∨ a ∈ leased (live busy)) ∧
  NoDup (idle (store busy)) ∧
  (∀ a, a ∈ idle (store busy) → a ∉ leased (live busy)) ∧
  (∀ i j l l' a, live busy !! i = Some l → live busy !! j = Some l' →
                 get l = Some a → get l' = Some a → i = j).
Proof.
  assert (run count_use count_reset busy_setup (start ∅) = Running busy) as R.
  { vm_compute. reflexivity. }
  split; [exact R|].
  exact (exclusive_ownership count_use count_reset ∅ busy_setup busy R).
Defined.

Lemma release_reinserts_exactly_once_witness :
  live busy !! 0 = Some (mkLease (Some 2%positive) return_to_pool) ∧
  ∃ c', exec count_use count_reset (OpRelease 0) busy = Running c' ∧
        live c' = delete 0 (live busy) ∧
        match get (mkLease (T:=nat) (Some 2%positive) return_to_pool) with
        | Some a =>
            ptrType_dtor (mkLease (Some 2%positive) return_to_pool) (store busy)
            = Add (Some a) (store busy) ∧
            size_of (store c') = S (size_of (store busy)) ∧
            count_occ Pos.eq_dec (idle (store c')) a = 1 ∧
            a ∉ leased (live c')
        | None => store c' = store busy
        end.
Proof.
  split; [reflexivity|].
  apply (release_reinserts_exactly_once count_use count_reset busy 0).
  - exact busy_reachable.
  - reflexivity.
Defined.

(** C2 as stated fails: the lease [Acquire] makes of a null handle, which
    [Add] took, ends without any call of [Add]; the store after the end of
    the lease is the store before it, and [Size()] stays 0. *)
Lemma null_lease_reinserts_nothing :
  ∃ l s', Acquire (Add nullptr (store (start (T:=nat) ∅))).2
          = (Returned _ l, s') ∧
          ptrType_dtor l s' = (Returned _ (), s') ∧
          (∀ t, ptrType_dtor l s' ≠ Add t s') ∧
          value (Size (ptrType_dtor l s').2) = Some 0.
Proof.
  exists (mkLease nullptr return_to_pool), (store (start ∅)).
  split; [reflexivity|]. split; [reflexivity|].
  split; [|reflexivity]. intros t E. apply (f_equal (λ r, size_of r.2)) in E.
  vm_compute in E. discriminate E.
Qed.

Lemma acquire_all_release_all_witness :
  (Forall is_Some (m_pool (this (store two_idle))) ∧
   release_order (size_of (store two_idle)) [1; 0]) ∧
  (∀ k, k ≤ 2 → ∃ ck, run count_use count_reset (replicate k OpAcquire) two_idle
                      = Running ck ∧
                      size_of (store ck) = 2 - k) ∧
  ∃ c0 c', run count_use count_reset (replicate 2 OpAcquire) two_idle
           = Running c0 ∧
           size_of (store c0) = 0 ∧
           run count_use count_reset (OpRelease <$> [1; 0]) c0 = Running c' ∧
           size_of (store c') = 2 ∧
           idle (store c') ≡ₚ idle (store two_idle) ∧
           live c' = live two_idle.
Proof.
  assert (Forall is_Some (m_pool (this (store two_idle)))) as PV.
  { repeat constructor; by eexists. }
  assert (release_order (size_of (store two_idle)) [1; 0]) as RO.
  { simpl. lia. }
  split; [by split|].
  exact (acquire_all_release_all count_use count_reset two_idle [1; 0] PV RO).
Defined.

Lemma release_keeps_resource_state_witness :
  (live one_leased !! 0 = Some (mkLease (Some 2%positive) return_to_pool) ∧
   heap (store one_leased) !! 2%positive = Some 20) ∧
  ∃ c' c'', exec count_use count_reset (OpRelease 0) one_leased = Running c' ∧
            heap (store c') = heap (store one_leased) ∧
            exec count_use count_reset OpAcquire c' = Running c'' ∧
            get <$> head (live c'') = Some (Some 2%positive) ∧
            heap (store c'') !! 2%positive = Some 20 ∧
            (count_reset 20 ≠ 20 →
             heap (store c'') !! 2%positive ≠ Some (count_reset 20)).
Proof.
  assert (heap (store one_leased) !! 2%positive = Some 20) as H.
  { vm_compute. reflexivity. }
  split; [by split|].
  apply (release_keeps_resource_state count_use count_reset one_leased 0
           (mkLease (Some 2%positive) return_to_pool) 2%positive 20).
  - exact one_leased_reachable.
  - reflexivity.
  - reflexivity.
  - exact H.
Defined.

(** C1 as stated fails: [Add] of a resource and [Add] of a null handle
    followed by one acquire-and-release pair, on the empty pool, end with
    [Size()] 1 where it was 0 before. *)
Lemma Size_not_kept_over_Add :
  ¬ (∀ c', run count_use count_reset
               ([OpAdd 1 10; OpAddNull] ++ pairs 1) (start ∅)
           = Running c' →
           size_of (store c') = size_of (store (start (T:=nat) ∅))).
Proof.
  intros H. pose proof (H _ eq_refl) as E. vm_compute in E. discriminate E.
Qed.

(** In the same run two [Add] calls were made and [Size()] is up by one
    only: the null handle went with the lease that took it. *)
Lemma null_Add_not_kept :
  ¬ (∀ c', run count_use count_reset
               ([OpAdd 1 10; OpAddNull] ++ pairs 1) (start ∅)
           = Running c' →
           size_of (store c') = size_of (store (start (T:=nat) ∅)) + 2).
Proof.
  intros H. pose proof (H _ eq_refl) as E. vm_compute in E. discriminate E.
Qed.

(** C5 as stated fails: the pool of [Size()] 2 that holds a null handle on
    top of one resource has [Size()] 1 after both elements are acquired
    and both leases have ended. *)
Lemma Size_not_restored_with_null_handle :
  ¬ (∀ c', run count_use count_reset
               (replicate 2 OpAcquire ++ (OpRelease <$> [0; 0])) null_on_top
           = Running c' →
           size_of (store c') = size_of (store null_on_top)).
Proof.
  intros H. pose proof (H _ eq_refl) as E. vm_compute in E. discriminate E.
Qed.

(** * The end of the pool, and longer runs *)

Section Lifetime.

Context {T : Type}.
Variables UseResource Reset : T → T.

Local Abbreviation exec := (exec UseResource Reset).
Local Abbreviation run := (run UseResource Reset).
Local Abbreviation reachable := (reachable UseResource Reset).

Implicit Types (s : @Store T) (c : @Sys T) (l : @ptrType T).
Implicit Types (t : unique_ptr) (a : positive) (v : T).
Implicit Types (op : @Op T) (ops : list (@Op T)) (h : gmap positive T).

(** ** The destructor *)

Lemma lookup_freed (ads : list positive) h a :
  freed ads h !! a = if decide (a ∈ ads) then None else h !! a.
Proof.
  unfold freed. revert h. induction ads as [|b ads IH]; intros h; cbn [foldl].
  { by rewrite decide_False by apply not_elem_of_nil. }
  rewrite IH, lookup_delete.
  destruct (decide (a ∈ ads)) as [Hin|Hnin].
  - by rewrite decide_True by (by right).
  - destruct (decide (b = a)) as [->|Hne].
    + by rewrite decide_True by (by left).
    + rewrite decide_False; [done|]. by intros [->|?]%elem_of_cons.
Qed.

Lemma destroy_elements_call (st : list unique_ptr) s :
  destroy_elements st s
  = (Returned _ (), mkStore (this s) (freed (omap id st) (heap s))).
Proof.
  revert s. induction st as [|[a|] st IH]; intros s.
  - by destruct s.
  - change (destroy_elements (Some a :: st) s)
      with (destroy_elements st (mkStore (this s) (delete a (heap s)))).
    by rewrite IH.
  - change (destroy_elements (None :: st) s) with (destroy_elements st s).
    by rewrite IH.
Qed.

Lemma SharedPool_dtor_call s :
  SharedPool_dtor s
  = (Returned _ (), mkStore (mkSharedPool []) (freed (idle s) (heap s))).
Proof.
  unfold SharedPool_dtor, get_m_pool, mbind, M_bind.
  by rewrite destroy_elements_call.
Qed.

Lemma size_freed (ads : list positive) h :
  NoDup ads → (∀ a, a ∈ ads → is_Some (h !! a)) →
  size (freed ads h) + length ads = size h.
Proof.
  unfold freed. revert h. induction ads as [|b ads IH]; intros h ND Al; simpl.
  { lia. }
  apply NoDup_cons in ND as [Hb ND].
  destruct (Al b) as [v Hv]; [by left|].
  rewrite <- (insert_delete_id h b v Hv) at 2.
  rewrite map_size_insert_None by apply lookup_delete_eq.
  rewrite <- (IH (delete b h) ND); [lia|].
  intros a Ha. rewrite lookup_delete_ne; [apply Al; by right|].
  intros ->. done.
Qed.

(** ** What a step does to the free store *)

Lemma through_heap f i c c' :
  through f i c = Running c' →
  ∃ a, a ∈ leased (live c) ∧ heap (store c') = alter f a (heap (store c)).
Proof.
  intros (l & a & L & G & _ & ->)%through_Running. exists a. split; [|done].
  unfold leased. apply list_elem_of_omap. exists l. split; [|done].
  apply list_elem_of_lookup. by exists i.
Qed.

Lemma exec_heap op c c' :
  owned_once c → exec op c = Running c' →
  match op with
  | OpAdd a v => heap (store c) !! a = None ∧
                 heap (store c') = <[a:=v]> (heap (store c))
  | OpAddNull | OpAcquire | OpRelease _ => heap (store c') = heap (store c)
  | OpUse _ | OpReset _ =>
      ∃ f a, a ∈ leased (live c) ∧ heap (store c') = alter f a (heap (store c))
  end.
Proof.
  intros O E. destruct op as [a v| | |i|i|i].
  - destruct (heap (store c) !! a) eqn:H.
    { unfold ObjectPool.exec in E. by rewrite H in E. }
    rewrite (exec_Add _ _ a v c H) in E. by injection E as <-.
  - rewrite exec_AddNull in E. by injection E as <-.
  - destruct (m_pool (this (store c))) as [|t rest] eqn:P.
    { by rewrite (exec_Acquire_exhausted _ _ c P) in E. }
    rewrite (exec_Acquire _ _ t rest c P) in E. by injection E as <-.
  - destruct (live c !! i) as [l|] eqn:L.
    2:{ unfold ObjectPool.exec in E. by rewrite L in E. }
    pose proof (proj1 (Forall_lookup _ _) (live_bound _ O) i l L) as D.
    destruct (get l) as [a|] eqn:G.
    + rewrite (exec_Release _ _ i l a c L G D) in E. by injection E as <-.
    + rewrite (exec_Release_null _ _ i l c L G) in E. by injection E as <-.
  - apply through_heap in E as (a & ? & ?). by exists UseResource, a.
  - apply through_heap in E as (a & ? & ?). by exists Reset, a.
Qed.

(** No step frees an object. *)
Lemma exec_alive op c c' a :
  owned_once c → exec op c = Running c' →
  is_Some (heap (store c) !! a) → is_Some (heap (store c') !! a).
Proof.
  intros O E Ha. pose proof (exec_heap op c c' O E) as H.
  destruct op as [b v| | |i|i|i].
  - destruct H as [_ ->]. rewrite lookup_insert. by case_decide.
  - by rewrite H.
  - by rewrite H.
  - by rewrite H.
  - destruct H as (f & b & _ & ->). rewrite lookup_alter.
    case_decide; subst; [by apply fmap_is_Some|done].
  - destruct H as (f & b & _ & ->). rewrite lookup_alter.
    case_decide; subst; [by apply fmap_is_Some|done].
Qed.

(** A step changes no object but those the pool or a lease owns after it. *)
Lemma exec_frame op c c' a :
  owned_once c → exec op c = Running c' →
  a ∉ idle (store c') ++ leased (live c') →
  heap (store c') !! a = heap (store c) !! a.
Proof.
  intros O E Ha. pose proof (exec_heap op c c' O E) as H.
  destruct (owned_once_step _ _ op c c' O E) as [_ P].
  rewrite P in Ha. apply not_elem_of_app in Ha as [Hadd Hown].
  destruct op as [b v| | |i|i|i].
  - destruct H as [_ ->]. rewrite lookup_insert_ne; [done|].
    intros ->. apply Hadd. simpl. by left.
  - by rewrite H.
  - by rewrite H.
  - by rewrite H.
  - destruct H as (f & b & Hb & ->). rewrite lookup_alter_ne; [done|].
    intros ->. apply Hown, elem_of_app. by right.
  - destruct H as (f & b & Hb & ->). rewrite lookup_alter_ne; [done|].
    intros ->. apply Hown, elem_of_app. by right.
Qed.

(** A step takes [Size()] plus the number of live leases up by one when it
    is an [Add], and never up otherwise. *)
Lemma exec_elements op c c' :
  owned_once c → exec op c = Running c' →
  size_of (store c') + length (live c')
  ≤ size_of (store c) + length (live c) + (if is_Add op then 1 else 0).
Proof.
  intros O E. destruct op as [a v| | |i|i|i].
  - destruct (heap (store c) !! a) eqn:H.
    { unfold ObjectPool.exec in E. by rewrite H in E. }
    rewrite (exec_Add _ _ a v c H) in E. injection E as <-.
    unfold size_of. simpl. lia.
  - rewrite exec_AddNull in E. injection E as <-. unfold size_of. simpl. lia.
  - destruct (m_pool (this (store c))) as [|t rest] eqn:P.
    { by rewrite (exec_Acquire_exhausted _ _ c P) in E. }
    rewrite (exec_Acquire _ _ t rest c P) in E. injection E as <-.
    unfold size_of. rewrite P. simpl. lia.
  - destruct (live c !! i) as [l|] eqn:L.
    2:{ unfold ObjectPool.exec in E. by rewrite L in E. }
    pose proof (proj1 (Forall_lookup _ _) (live_bound _ O) i l L) as D.
    apply lookup_lt_Some in L as Hi.
    destruct (get l) as [a|] eqn:G.
    + rewrite (exec_Release _ _ i l a c L G D) in E. injection E as <-.
      unfold size_of. simpl. rewrite length_delete by eauto. lia.
    + rewrite (exec_Release_null _ _ i l c L G) in E. injection E as <-.
      unfold size_of. simpl. rewrite length_delete by eauto. lia.
  - apply through_Running in E as (l & a & _ & _ & _ & ->).
    unfold size_of. simpl. lia.
  - apply through_Running in E as (l & a & _ & _ & _ & ->).
    unfold size_of. simpl. lia.
Qed.

Lemma run_elements ops c c' :
  owned_once c → run ops c = Running c' →
  size_of (store c') + length (live c')
  ≤ size_of (store c) + length (live c) + length (List.filter is_Add ops).
Proof.
  revert c. induction ops as [|op ops IH]; intros c O R; cbn [ObjectPool.run] in R.
  { injection R as <-. simpl. lia. }
  destruct (exec op c) as [c1| |] eqn:E; try discriminate.
  destruct (owned_once_step _ _ op c c1 O E) as [O1 _].
  pose proof (IH c1 O1 R). pose proof (exec_elements op c c1 O E).
  simpl. destruct (is_Add op); simpl; lia.
Qed.

Lemma run_alive ops c c' a :
  owned_once c → run ops c = Running c' →
  is_Some (heap (store c) !! a) → is_Some (heap (store c') !! a).
Proof.
  revert c. induction ops as [|op ops IH]; intros c O R Ha; cbn [ObjectPool.run] in R.
  { by injection R as <-. }
  destruct (exec op c) as [c1| |] eqn:E; try discriminate.
  destruct (owned_once_step _ _ op c c1 O E) as [O1 _].
  apply (IH c1 O1 R). by apply (exec_alive op c c1).
Qed.

Lemma run_frame ops c c' a :
  owned_once c → run ops c = Running c' →
  a ∉ idle (store c') ++ leased (live c') →
  heap (store c') !! a = heap (store c) !! a.
Proof.
  revert c. induction ops as [|op ops IH]; intros c O R Ha; cbn [ObjectPool.run] in R.
  { by injection R as <-. }
  destruct (exec op c) as [c1| |] eqn:E; try discriminate.
  destruct (owned_once_step _ _ op c c1 O E) as [O1 _].
  rewrite (IH c1 O1 R Ha). apply (exec_frame op c c1 a O E).
  destruct (owned_once_run _ _ ops c1 c' O1 R) as [_ P].
  rewrite P in Ha. by apply not_elem_of_app in Ha as [_ ?].
Qed.

Lemma run_added_fresh ops c c' a :
  owned_once c → run ops c = Running c' →
  a ∈ added ops → heap (store c) !! a = None.
Proof.
  revert c. induction ops as [|op ops IH]; intros c O R Ha; cbn [ObjectPool.run] in R.
  { by apply elem_of_nil in Ha. }
  destruct (exec op c) as [c1| |] eqn:E; try discriminate.
  destruct (owned_once_step _ _ op c c1 O E) as [O1 _].
  rewrite added_cons in Ha. apply elem_of_app in Ha as [Ha|Ha].
  - specialize (IH c1 O1 R Ha). apply eq_None_not_Some. intros Hs.
    apply (exec_alive op c c1 a O E) in Hs. rewrite IH in Hs. by destruct Hs.
  - pose proof (exec_heap op c c1 O E) as H.
    destruct op as [b v| | |i|i|i]; simpl in Ha; try by apply elem_of_nil in Ha.
    apply list_elem_of_singleton in Ha as ->. by destruct H.
Qed.

(** ** The destructor, the free store and the leases *)

(** X1: the destructor frees exactly the idle resources.  In every store
    [~SharedPool()] returns, leaves no element, and the free store after it
    has lost the objects the elements owned and kept every other object as
    it was; the order in which the elements are destroyed does not show. *)
Theorem destructor_frees_idle s :
  ∃ s', SharedPool_dtor s = (Returned _ (), s') ∧
        m_pool (this s') = [] ∧
        (∀ a, heap s' !! a = if decide (a ∈ idle s) then None else heap s !! a) ∧
        (∀ st, st ≡ₚ m_pool (this s) →
               heap (destroy_elements st s).2 = heap s').
Proof.
  eexists. split; [apply SharedPool_dtor_call|]. simpl.
  split; [done|]. split; [intros a; apply lookup_freed|].
  intros st P. rewrite destroy_elements_call. simpl. apply map_eq. intros a.
  rewrite !lookup_freed. unfold idle.
  destruct (decide (a ∈ omap id st)) as [Hin|Hnin].
  - rewrite decide_True; [done|]. by rewrite <- P.
  - rewrite decide_False; [done|]. by rewrite <- P.
Qed.

(** X2: a pool destroyed while leases are out.  In every reachable state
    the destructor frees each idle resource, which was a live object, once:
    the free store loses exactly one object for each idle resource, which
    is [Size()] objects when no element is a null handle; and every leased
    resource is still a live object in the state its borrower gave it. *)
Theorem destructor_spares_leased c :
  reachable c →
  ∃ s', SharedPool_dtor (store c) = (Returned _ (), s') ∧
        size (heap s') + length (idle (store c)) = size (heap (store c)) ∧
        (Forall is_Some (m_pool (this (store c))) →
         size (heap s') + size_of (store c) = size (heap (store c))) ∧
        (∀ a, a ∈ idle (store c) → heap s' !! a = None) ∧
        (∀ a, a ∈ leased (live c) →
              is_Some (heap s' !! a) ∧ heap s' !! a = heap (store c) !! a).
Proof.
  intros [LB ND AL]%reachable_owned_once.
  apply NoDup_app in ND as (NI & Disj & _).
  assert (size (freed (idle (store c)) (heap (store c)))
          + length (idle (store c)) = size (heap (store c))) as Sz.
  { apply size_freed; [done|]. intros a Ha. apply AL, elem_of_app. by left. }
  eexists. split; [apply SharedPool_dtor_call|]. simpl.
  split; [exact Sz|]. split; [|split; [|split]].
  - intros PV. by rewrite <- (size_of_idle _ PV).
  - intros a Ha. rewrite lookup_freed. by rewrite decide_True.
  - rewrite lookup_freed, decide_False by (intros Hi; by apply Disj in Hi).
    apply AL, elem_of_app. by right.
  - by rewrite lookup_freed, decide_False by (intros Hi; by apply Disj in Hi).
Qed.

(** X3: the whole life of a pool.  When every lease has ended, destroying
    the pool frees every resource that was ever added and nothing else: the
    free store is again what it was before the first [Add]. *)
Theorem whole_life_frees_what_was_added h ops c :
  run ops (start h) = Running c → live c = [] →
  ∃ s', SharedPool_dtor (store c) = (Returned _ (), s') ∧
        m_pool (this s') = [] ∧
        heap s' = h.
Proof.
  intros R L. pose proof (owned_once_start h) as O0.
  destruct (owned_once_run _ _ ops _ c O0 R) as [O P].
  simpl in P. rewrite L in P. simpl in P. rewrite !app_nil_r in P.
  eexists. split; [apply SharedPool_dtor_call|]. simpl. split; [done|].
  apply map_eq. intros a. rewrite lookup_freed.
  destruct (decide (a ∈ idle (store c))) as [Hin|Hnin].
  - symmetry. apply (run_added_fresh ops (start h) c a O0 R). by rewrite <- P.
  - apply (run_frame ops (start h) c a O0 R). rewrite L. simpl.
    by rewrite app_nil_r.
Qed.

(** ** Reachable states *)

(** X4: what [Acquire] hands out.  In a reachable state with a non-empty
    pool, [Acquire] returns a lease that holds the pointer of the top
    element.  When that element owns a resource, the lease is on a live
    object, which is no longer idle and is in no other live lease; when it
    is a null handle the lease owns nothing.  The call itself creates,
    frees and changes no object, although [pop()] destroys the element the
    pointer was taken from. *)
Theorem Acquire_hands_out_live_object c t (rest : list unique_ptr) :
  reachable c → m_pool (this (store c)) = t :: rest →
  ∃ l c', exec OpAcquire c = Running c' ∧
          live c' = l :: live c ∧
          get l = t ∧
          heap (store c') = heap (store c) ∧
          ∀ a, t = Some a →
               is_Some (heap (store c') !! a) ∧
               (a ∉ idle (store c')) ∧
               (a ∉ leased (live c)).
Proof.
  intros O%reachable_owned_once P.
  eexists _, _. split; [by apply exec_Acquire|]. simpl.
  split; [done|]. split; [done|]. split; [done|]. intros a ->.
  assert (idle (store c) = a :: omap id rest) as I by (unfold idle; by rewrite P).
  pose proof (one_owner _ O) as ND. rewrite I in ND.
  change (NoDup (a :: (omap id rest ++ leased (live c)))) in ND.
  apply NoDup_cons in ND as [Ha _]. apply not_elem_of_app in Ha as [Ha1 Ha2].
  split; [|by split]. apply (owned_alive _ O a).
  rewrite I. apply elem_of_app. left. by left.
Qed.

(** X5: where the resources are.  In every state reached from the empty
    pool, the idle resources and the leased resources together are as many
    as the [Add] calls that passed a resource; [Size()] plus the number of
    live leases is at most the number of all [Add] calls, null handles
    included. *)
Theorem Size_plus_leases_counts_Adds h ops c :
  run ops (start h) = Running c →
  length (idle (store c)) + length (leased (live c)) = length (added ops) ∧
  size_of (store c) + length (live c) ≤ length (List.filter is_Add ops).
Proof.
  intros R. pose proof (owned_once_start h) as O. split.
  - pose proof (run_resources _ _ ops (start h) c O R) as E.
    simpl in E. lia.
  - pose proof (run_elements ops (start h) c O R) as E.
    unfold start, size_of in E. simpl in E. unfold size_of. lia.
Qed.

(** ** Longer runs *)

Lemma release_newest_first (ls old : list (@ptrType T)) (st : list unique_ptr) h :
  Forall from_Acquire ls →
  run (replicate (length ls) (OpRelease 0))
      (mkSys (mkStore (mkSharedPool st) h) (ls ++ old))
  = Running (mkSys (mkStore (mkSharedPool (reverse (get <$> ls) ++ st)) h) old).
Proof.
  intros F. revert st. induction F as [|l ls [[a G] D] F IH]; intros st.
  { done. }
  cbn [length replicate ObjectPool.run].
  erewrite (exec_Release _ _ 0 l a); [|done..]. simpl.
  rewrite IH, reverse_cons, G. by rewrite <- (assoc_L (++)).
Qed.

Lemma release_oldest_first (ls old : list (@ptrType T)) (st : list unique_ptr) h :
  Forall from_Acquire ls →
  run (OpRelease <$> reverse (seq 0 (length ls)))
      (mkSys (mkStore (mkSharedPool st) h) (ls ++ old))
  = Running (mkSys (mkStore (mkSharedPool ((get <$> ls) ++ st)) h) old).
Proof.
  revert st. induction ls as [|l ls IH] using rev_ind; intros st F.
  { done. }
  apply Forall_app in F as [F [[[a G] D] _]%Forall_cons].
  rewrite length_app, Nat.add_comm. cbn [length Nat.add].
  rewrite seq_S, reverse_snoc. cbn [Nat.add fmap list_fmap ObjectPool.run].
  rewrite <- (assoc_L (++)).
  erewrite (exec_Release _ _ (length ls) l a);
    [|by apply list_lookup_middle|done..].
  cbn [live store this m_pool heap]. change ([l] ++ old) with (l :: old).
  rewrite delete_middle, (IH _ F), fmap_app. simpl. rewrite G.
  by rewrite <- (assoc_L (++)).
Qed.

Lemma leases_of_handles (st : list unique_ptr) :
  get <$> ((λ t, mkLease (T:=T) t return_to_pool) <$> st) = st.
Proof. rewrite <- list_fmap_compose. apply list_fmap_id. Qed.

Lemma acquired_from_Acquire (st : list unique_ptr) :
  Forall is_Some st →
  Forall from_Acquire
         (reverse ((λ t, mkLease (T:=T) t return_to_pool) <$> st)).
Proof.
  intros F. apply Forall_reverse, Forall_fmap.
  eapply Forall_impl; [exact F|]. by intros t Ht.
Qed.

(** X6: scopes that nest.  When [k] leases are acquired and then end in
    the reverse of the order they were acquired in, as nested scopes make
    them, the client is exactly where it started: the idle collection has
    the same elements in the same order. *)
Theorem nested_scopes_restore_the_pool c k :
  k ≤ size_of (store c) →
  Forall is_Some (take k (m_pool (this (store c)))) →
  run (replicate k OpAcquire ++ replicate k (OpRelease 0)) c = Running c.
Proof.
  destruct c as [[[st] h] lv]. unfold size_of. simpl. intros Hk F.
  rewrite run_app, (run_acquire_all _ _ k st) by done. simpl.
  pose proof (acquired_from_Acquire _ F) as FA.
  assert (length (reverse ((λ t, mkLease (T:=T) t return_to_pool) <$> take k st))
          = k) as Hl.
  { rewrite length_reverse, length_fmap, length_take. lia. }
  replace (replicate k (@OpRelease T 0))
    with (replicate (length (reverse ((λ t, mkLease (T:=T) t return_to_pool)
                                      <$> take k st))) (@OpRelease T 0))
    by (by rewrite Hl).
  rewrite (release_newest_first _ _ _ _ FA).
  rewrite fmap_reverse, reverse_involutive, leases_of_handles.
  by rewrite take_drop.
Qed.

(** X7: leases that end in the order they were acquired in.  When [k]
    leases are acquired and the oldest ends first, all releases run and the
    [k] resources are idle again in reversed order, on top of the elements
    that were not taken. *)
Theorem release_in_Acquire_order_reverses c k :
  k ≤ size_of (store c) →
  Forall is_Some (take k (m_pool (this (store c)))) →
  ∃ c', run (replicate k OpAcquire ++ (OpRelease <$> reverse (seq 0 k))) c
        = Running c' ∧
        m_pool (this (store c'))
        = reverse (take k (m_pool (this (store c))))
          ++ drop k (m_pool (this (store c))) ∧
        heap (store c') = heap (store c) ∧
        live c' = live c.
Proof.
  destruct c as [[[st] h] lv]. unfold size_of. simpl. intros Hk F.
  rewrite run_app, (run_acquire_all _ _ k st) by done. simpl.
  pose proof (acquired_from_Acquire _ F) as FA.
  assert (length (reverse ((λ t, mkLease (T:=T) t return_to_pool) <$> take k st))
          = k) as Hl.
  { rewrite length_reverse, length_fmap, length_take. lia. }
  replace (reverse (seq 0 k))
    with (reverse (seq 0 (length (reverse ((λ t, mkLease (T:=T) t return_to_pool)
                                           <$> take k st)))))
    by (by rewrite Hl).
  rewrite (release_oldest_first _ _ _ _ FA).
  eexists. split; [done|]. simpl.
  by rewrite fmap_reverse, leases_of_handles.
Qed.

(** X8: more calls of [Acquire] than [Size()].  From any state, [m] calls
    in a row with [m] above [Size()] abort in the call after the last
    element was taken: the signal is [PoolExhausted], the pool is empty, no
    object has changed, and the leases taken so far are alive, the newest
    first. *)
Theorem Acquire_beyond_Size_aborts c m :
  size_of (store c) < m →
  ∃ c', run (replicate m OpAcquire) c = Aborted PoolExhausted c' ∧
        m_pool (this (store c')) = [] ∧
        heap (store c') = heap (store c) ∧
        live c' = reverse ((λ t, mkLease t return_to_pool)
                           <$> m_pool (this (store c))) ++ live c.
Proof.
  intros Hm. unfold size_of in Hm.
  replace m with (length (m_pool (this (store c)))
                  + S (m - length (m_pool (this (store c))) - 1)) by lia.
  rewrite replicate_add, run_app.
  rewrite (run_acquire_all _ _ _ _ c eq_refl (le_n _)).
  rewrite drop_all, firstn_all. cbn [replicate ObjectPool.run].
  rewrite exec_Acquire_exhausted by done. eexists. by repeat split.
Qed.

(** X9: [Acquire] takes resources in the reverse of the order of [Add].
    After newly made objects are added one by one, the [k] leases acquired
    next own, in the order they were acquired, the latest added resource,
    the one added before it, and so on; the older leases are untouched. *)
Theorem Acquire_order_reverses_Add_order (rs : list (positive * T)) k c :
  NoDup rs.*1 → (∀ a, a ∈ rs.*1 → heap (store c) !! a = None) →
  k ≤ length rs →
  ∃ c', run (add_all rs ++ replicate k OpAcquire) c = Running c' ∧
        get <$> reverse (take k (live c')) = Some <$> take k (reverse rs.*1) ∧
        drop k (live c') = live c.
Proof.
  intros ND Fresh Hk.
  destruct (run_add_all UseResource Reset rs c ND Fresh)
    as (c1 & R1 & P1 & L1).
  assert (k ≤ length (Some <$> reverse rs.*1)) as Hk'.
  { by rewrite length_fmap, length_reverse, length_fmap. }
  rewrite run_app, R1.
  assert (k ≤ length (m_pool (this (store c1)))) as Hk1.
  { rewrite P1, length_app. etrans; [exact Hk'|]. apply Nat.le_add_r. }
  rewrite (run_acquire_all _ _ k _ c1 eq_refl Hk1).
  eexists. split; [done|]. simpl.
  set (ls := reverse ((λ t, mkLease (T:=T) t return_to_pool)
                      <$> take k (m_pool (this (store c1))))).
  assert (length ls = k) as Hl.
  { unfold ls. rewrite length_reverse, length_fmap, length_take. lia. }
  rewrite (take_app_length' ls _ k) by done.
  rewrite (drop_app_length' ls _ k) by done. split; [|done].
  unfold ls. rewrite reverse_involutive, leases_of_handles, P1.
  by rewrite take_app_le, fmap_take by done.
Qed.

Lemma run_release_any n (order : list nat)
    (new old : list (@ptrType T)) (st : list unique_ptr) h :
  length new = n →
  Forall (λ l, get_deleter l = return_to_pool) new →
  release_order n order →
  ∃ st', run (OpRelease <$> order)
             (mkSys (mkStore (mkSharedPool st) h) (new ++ old))
         = Running (mkSys (mkStore (mkSharedPool st') h) old) ∧
         st' ≡ₚ (Some <$> leased new) ++ st.
Proof.
  revert order new st. induction n as [|n IH]; intros order new st Hn F Ho.
  { destruct order; [|done]. destruct new; [|done]. by exists st. }
  destruct order as [|i order]; [done|]. destruct Ho as [Hi Ho].
  rewrite <- Hn in Hi. destruct (lookup_lt_is_Some_2 new i Hi) as [l L].
  pose proof (proj1 (Forall_lookup _ _) F i l L) as D. simpl in D.
  assert (length (delete i new) = n) as Hd.
  { rewrite length_delete by eauto. lia. }
  pose proof (Forall_delete _ _ i F) as Fd.
  assert (leased new ≡ₚ leased (l :: delete i new)) as Pl.
  { unfold leased. by rewrite (delete_Permutation new i l L) at 1. }
  cbn [fmap list_fmap ObjectPool.run]. destruct (get l) as [a|] eqn:G.
  - erewrite (exec_Release _ _ i l a); [|by simpl; rewrite lookup_app_l|done..].
    simpl. rewrite delete_app_l by done.
    destruct (IH order (delete i new) (Some a :: st) Hd Fd Ho) as (st' & R & P).
    exists st'. split; [exact R|]. rewrite P, Pl. unfold leased at 2. csimpl.
    rewrite G. csimpl. by rewrite Permutation_middle.
  - erewrite (exec_Release_null _ _ i l); [|by simpl; rewrite lookup_app_l|done].
    simpl. rewrite delete_app_l by done.
    destruct (IH order (delete i new) st Hd Fd Ho) as (st' & R & P).
    exists st'. split; [exact R|]. rewrite P, Pl. unfold leased at 2. csimpl.
    by rewrite G.
Qed.

(** X10: a null handle is lost.  [Add] takes a null [unique_ptr] and
    [Size()] counts it, but the lease made of it owns nothing and its end
    puts nothing back.  So, whatever the pool holds: after all elements
    are acquired and all leases have ended, in any order, the idle
    collection holds the resources it held before and no null handle, and
    [Size()] is the number of resources, not the number of elements. *)
Theorem null_handles_are_lost c (order : list nat) :
  release_order (size_of (store c)) order →
  ∃ c', run (replicate (size_of (store c)) OpAcquire ++ (OpRelease <$> order)) c
        = Running c' ∧
        m_pool (this (store c')) ≡ₚ Some <$> idle (store c) ∧
        size_of (store c') = length (idle (store c)) ∧
        heap (store c') = heap (store c) ∧
        live c' = live c.
Proof.
  destruct c as [[[st] h] lv]. unfold size_of, idle. simpl. intros Ho.
  rewrite run_app, (run_acquire_all _ _ (length st) st) by done.
  rewrite drop_all, firstn_all. simpl.
  set (new := reverse ((λ t, mkLease (T:=T) t return_to_pool) <$> st)).
  assert (length new = length st) as Hn.
  { unfold new. by rewrite length_reverse, length_fmap. }
  assert (Forall (λ l, get_deleter l = return_to_pool) new) as F.
  { unfold new. apply Forall_reverse, Forall_fmap, Forall_true. by intros t. }
  destruct (run_release_any _ order new lv [] h Hn F Ho) as (st' & R & P).
  assert (leased new ≡ₚ omap id st) as Pn.
  { unfold leased, new. rewrite reverse_Permutation.
    clear. induction st as [|[a|] st IH]; csimpl; by rewrite ?IH. }
  rewrite app_nil_r, Pn in P.
  eexists. split; [exact R|]. simpl. repeat split; [done|].
  by rewrite P, length_fmap.
Qed.

End Lifetime.

(** * The end of the pool and longer runs, at the concrete client *)

Lemma destructor_frees_idle_witness :
  ∃ s', SharedPool_dtor (store two_idle) = (Returned _ (), s') ∧
        m_pool (this s') = [] ∧
        (∀ a, heap s' !! a
              = if decide (a ∈ idle (store two_idle)) then None
                else heap (store two_idle) !! a) ∧
        (∀ st, st ≡ₚ m_pool (this (store two_idle)) →
               heap (destroy_elements st (store two_idle)).2 = heap s').
Proof. exact (destructor_frees_idle (store two_idle)). Defined.

Lemma destructor_spares_leased_witness :
  ∃ s', SharedPool_dtor (store busy) = (Returned _ (), s') ∧
        size (heap s') + length (idle (store busy)) = size (heap (store busy)) ∧
        (Forall is_Some (m_pool (this (store busy))) →
         size (heap s') + size_of (store busy) = size (heap (store busy))) ∧
        (∀ a, a ∈ idle (store busy) → heap s' !! a = None) ∧
        (∀ a, a ∈ leased (live busy) →
              is_Some (heap s' !! a) ∧
              heap s' !! a = heap (store busy) !! a).
Proof.
  exact (destructor_spares_leased count_use count_reset busy busy_reachable).
Defined.

Lemma whole_life_frees_what_was_added_witness :
  ∃ c, (run count_use count_reset (setup ++ [OpUse 0; OpRelease 0]) (start ∅)
        = Running c ∧ live c = []) ∧
       ∃ s', SharedPool_dtor (store c) = (Returned _ (), s') ∧
             m_pool (this s') = [] ∧
             heap s' = ∅.
Proof.
  eexists. assert (∀ A B : Prop, A → (A → B) → A ∧ B) as both by tauto.
  apply both.
  - split; [vm_compute; reflexivity|reflexivity].
  - intros [R L].
    exact (whole_life_frees_what_was_added count_use count_reset ∅ _ _ R L).
Defined.

Lemma Acquire_hands_out_live_object_witness :
  m_pool (this (store busy)) = [Some 1%positive] ∧
  ∃ l c', exec count_use count_reset OpAcquire busy = Running c' ∧
          live c' = l :: live busy ∧
          get l = Some 1%positive ∧
          heap (store c') = heap (store busy) ∧
          ∀ a, Some 1%positive = Some a →
               is_Some (heap (store c') !! a) ∧
               (a ∉ idle (store c')) ∧
               (a ∉ leased (live busy)).
Proof.
  split; [reflexivity|].
  exact (Acquire_hands_out_live_object count_use count_reset busy
           (Some 1%positive) [] busy_reachable eq_refl).
Defined.

Lemma Size_plus_leases_counts_Adds_witness :
  run count_use count_reset busy_setup (start ∅) = Running busy ∧
  length (idle (store busy)) + length (leased (live busy))
  = length (added busy_setup) ∧
  size_of (store busy) + length (live busy)
  ≤ length (List.filter is_Add busy_setup).
Proof.
  assert (run count_use count_reset busy_setup (start ∅) = Running busy) as R.
  { vm_compute. reflexivity. }
  split; [exact R|].
  exact (Size_plus_leases_counts_Adds count_use count_reset ∅ busy_setup busy R).
Defined.

Lemma two_idle_valid : Forall is_Some (take 2 (m_pool (this (store two_idle)))).
Proof. repeat constructor; by eexists. Qed.

Lemma nested_scopes_restore_the_pool_witness :
  (2 ≤ size_of (store two_idle) ∧
   Forall is_Some (take 2 (m_pool (this (store two_idle))))) ∧
  run count_use count_reset
      (replicate 2 OpAcquire ++ replicate 2 (OpRelease 0)) two_idle
  = Running two_idle.
Proof.
  assert (2 ≤ size_of (store two_idle)) as Hk by (vm_compute; lia).
  split; [split; [exact Hk|exact two_idle_valid]|].
  exact (nested_scopes_restore_the_pool count_use count_reset two_idle 2
           Hk two_idle_valid).
Defined.

Lemma release_in_Acquire_order_reverses_witness :
  (2 ≤ size_of (store two_idle) ∧
   Forall is_Some (take 2 (m_pool (this (store two_idle))))) ∧
  ∃ c', run count_use count_reset
            (replicate 2 OpAcquire ++ (OpRelease <$> reverse (seq 0 2))) two_idle
        = Running c' ∧
        m_pool (this (store c'))
        = reverse (take 2 (m_pool (this (store two_idle))))
          ++ drop 2 (m_pool (this (store two_idle))) ∧
        heap (store c') = heap (store two_idle) ∧
        live c' = live two_idle.
Proof.
  assert (2 ≤ size_of (store two_idle)) as Hk by (vm_compute; lia).
  split; [split; [exact Hk|exact two_idle_valid]|].
  exact (release_in_Acquire_order_reverses count_use count_reset two_idle 2
           Hk two_idle_valid).
Defined.

Lemma Acquire_beyond_Size_aborts_witness :
  size_of (store two_idle) < 3 ∧
  ∃ c', run count_use count_reset (replicate 3 OpAcquire) two_idle
        = Aborted PoolExhausted c' ∧
        m_pool (this (store c')) = [] ∧
        heap (store c') = heap (store two_idle) ∧
        live c' = reverse ((λ t, mkLease t return_to_pool)
                           <$> m_pool (this (store two_idle)))
                  ++ live two_idle.
Proof.
  assert (size_of (store two_idle) < 3) as Hm by (vm_compute; lia).
  split; [exact Hm|].
  exact (Acquire_beyond_Size_aborts count_use count_reset two_idle 3 Hm).
Defined.

Lemma Acquire_order_reverses_Add_order_witness :
  (NoDup [(1%positive, 10); (2%positive, 20)].*1 ∧
   (∀ a, a ∈ [(1%positive, 10); (2%positive, 20)].*1 →
         heap (store (start (T:=nat) ∅)) !! a = None) ∧
   2 ≤ length [(1%positive, 10); (2%positive, 20)]) ∧
  ∃ c', run count_use count_reset
            (add_all [(1%positive, 10); (2%positive, 20)] ++ replicate 2 OpAcquire)
            (start ∅) = Running c' ∧
        get <$> reverse (take 2 (live c'))
        = Some <$> take 2 (reverse [(1%positive, 10); (2%positive, 20)].*1) ∧
        drop 2 (live c') = live (start (T:=nat) ∅).
Proof.
  assert (NoDup [(1%positive, 10); (2%positive, 20)].*1) as ND.
  { apply NoDup_ListNoDup. repeat constructor; simpl; intuition discriminate. }
  assert (∀ a, a ∈ [(1%positive, 10); (2%positive, 20)].*1 →
               heap (store (start (T:=nat) ∅)) !! a = None) as Fresh.
  { intros a _. apply lookup_empty. }
  assert (2 ≤ length [(1%positive, 10); (2%positive, 20)]) as Hk by (vm_compute; lia).
  split; [by repeat split|].
  exact (Acquire_order_reverses_Add_order count_use count_reset
           [(1%positive, 10); (2%positive, 20)] 2 (start ∅) ND Fresh Hk).
Defined.

Lemma null_handles_are_lost_witness :
  release_order (size_of (store null_on_top)) [0; 0] ∧
  ∃ c', run count_use count_reset
            (replicate (size_of (store null_on_top)) OpAcquire
             ++ (OpRelease <$> [0; 0])) null_on_top
        = Running c' ∧
        m_pool (this (store c')) ≡ₚ Some <$> idle (store null_on_top) ∧
        size_of (store c') = length (idle (store null_on_top)) ∧
        heap (store c') = heap (store null_on_top) ∧
        live c' = live null_on_top.
Proof.
  assert (release_order (size_of (store null_on_top)) [0; 0]) as Ho.
  { vm_compute. lia. }
  split; [exact Ho|].
  exact (null_handles_are_lost count_use count_reset null_on_top [0; 0] Ho).
Defined.

End ObjectPool.
